(** * Request/response correlation layer of the actor framework

    A shallow embedding of
    - [libcaf_core/caf/string_algorithms.hpp] ([split], [join], [splice]
      and [replace_all]), and
    - [libcaf_core/src/response_promise.cpp] (construction of a response
      promise from a mailbox element, [deliver_impl] and [deliver]),
    together with the properties stated about them. *)

From Stdlib Require Import List Ascii String Arith Bool Lia.
From Equations Require Import Equations.
Import ListNotations.

Set Implicit Arguments.

(** ** Small tools shared by both parts *)

(** [x] together with a proof of what it is equal to; lets a definition
    remember the outcome of a test it branches on. *)
Definition inspect {A : Type} (a : A) : {b : A | a = b} := exist _ a eq_refl.

(** Sequencing of computations that may throw. *)
Definition bind {A B : Type} (m : option A) (k : A -> option B) : option B :=
  match m with
  | Some a => k a
  | None => None
  end.

Notation "x <- m ;; k" := (bind m (fun x => k))
  (at level 61, m at next level, right associativity).

(** * Part I: [caf/string_algorithms.hpp] *)

Module string_algorithms.

(** A [size_t] result that may be [std::string::npos]: [None] is [npos],
    [Some i] an index. *)
Definition size_type := option nat.
Definition npos : size_type := None.

(** [inline std::string is_any_of(std::string arg) { return arg; }] *)
Definition is_any_of (arg : string) : string := arg.

(** [constexpr bool token_compress_on = false;] *)
Definition token_compress_on : bool := false.

(** Does [c] occur in [delims]? *)
Fixpoint is_delim (c : ascii) (delims : string) : bool :=
  match delims with
  | EmptyString => false
  | String d rest => Ascii.eqb c d || is_delim c rest
  end.

(** [str.find_first_of(delims, pos)]: the least index [i >= pos] whose
    character is one of [delims], [npos] when there is none. *)
Fixpoint find_first_of (str delims : string) (pos : nat) : size_type :=
  match str with
  | EmptyString => npos
  | String c rest =>
      match pos with
      | 0 => if is_delim c delims then Some 0
             else option_map S (find_first_of rest delims 0)
      | S pos' => option_map S (find_first_of rest delims pos')
      end
  end.

(** [str.substr(pos, count)]: throws [std::out_of_range] ([None] here) when
    [pos > size()], otherwise the characters [pos, pos + min(count, size() - pos))].
    A [count] of [npos] takes everything up to the end. *)
Definition substr (str : string) (pos : nat) (count : size_type) : option string :=
  if String.length str <? pos then None
  else
    let avail := String.length str - pos in
    let n := match count with
             | Some c => Nat.min c avail
             | None => avail
             end in
    Some (substring pos n str).

(** [result.push_back(x)] on a sequence container. *)
Definition push_back {A : Type} (c : list A) (x : A) : list A := c ++ [x].

(** [substr.empty()] *)
Definition empty (s : string) : bool :=
  match s with
  | EmptyString => true
  | String _ _ => false
  end.

(** A token that is not the empty string. *)
Definition nonempty (s : string) : Prop := s <> EmptyString.

(** The [while] loop of [split].  The state is the result container and
    [prev]; the loop ends when [find_first_of] answers [npos], and an
    exception of [substr] aborts it. *)
Equations? split_loop (str delims : string) (keep_all : bool)
    (result : list string) (prev : nat)
    : option (list string * nat) by wf (String.length str - prev) lt :=
  split_loop str delims keep_all result prev
      with inspect (find_first_of str delims prev) := {
    | exist _ None _ => Some (result, prev);
    | exist _ (Some pos) Hpos =>
        if prev <? pos then
          sub <- substr str prev (Some (pos - prev)) ;;
          if negb (empty sub) || keep_all
          then split_loop str delims keep_all (push_back result sub) (pos + 1)
          else split_loop str delims keep_all result (pos + 1)
        else split_loop str delims keep_all result (pos + 1) }.
Proof.
  (* [find_first_of] answers an index in [prev, size()), so [pos + 1]
     is closer to the end than [prev] *)
  all: enough (prev <= pos < String.length str) by lia.
  all: clear - Hpos; revert prev pos Hpos.
  all: induction str as [|c str IH]; intros prev pos; simpl; [discriminate|].
  all: destruct prev;
         [destruct (is_delim c delims); [intros [= <-]; lia|]|].
  all: (destruct (find_first_of str delims _) eqn:E; simpl; [|discriminate]);
         intros [= <-]; apply IH in E; lia.
Qed.

(** [split(result, str, delims, keep_all)]; the container is passed by
    reference, so the model returns its final content. *)
Definition split (result : list string) (str delims : string)
    (keep_all : bool) : option (list string) :=
  st <- split_loop str delims keep_all result 0 ;;
  let '(result, prev) := st in
  if prev <? String.length str then
    tail <- substr str prev npos ;;
    Some (push_back result tail)
  else Some result.

(** ** The other string helpers of the header *)

(** [delims] has no character in [s]: [find_first_of] from the start
    answers [npos]. *)
Definition delimiter_free (s delims : string) : Prop :=
  find_first_of s delims 0 = npos.

(** The characters of [str] that are not in [delims], in order. *)
Fixpoint remove_delims (str delims : string) : string :=
  match str with
  | EmptyString => EmptyString
  | String c rest =>
      if is_delim c delims then remove_delims rest delims
      else String c (remove_delims rest delims)
  end.

(** Reference for [split]: the non-empty maximal runs of characters of
    [str] that are not in [delims], from left to right; [cur] is the run
    being read. *)
Fixpoint runs (str delims cur : string) : list string :=
  match str with
  | EmptyString => if empty cur then [] else [cur]
  | String c rest =>
      if is_delim c delims
      then (if empty cur then [] else [cur]) ++ runs rest delims EmptyString
      else runs rest delims (cur ++ String c EmptyString)%string
  end.

(** The run being read, closed: a token unless it is empty. *)
Definition flush (cur : string) : list string :=
  if empty cur then [] else [cur].

(** A token that [split] gives back as it is: not empty, and without a
    character of [delims]. *)
Definition field (delims t : string) : Prop :=
  t <> EmptyString /\ delimiter_free t delims.

(** The [for] loop of [join] over a container of strings: the flag
    [first] and the content of the stream [oss] are its state. *)
Fixpoint join_loop (it : list string) (glue : string) (first : bool)
    (oss : string) : string :=
  match it with
  | [] => oss
  | x :: rest =>
      let oss := if first then oss else (oss ++ glue)%string in
      join_loop rest glue false (oss ++ x)%string
  end.

(** [join(c, glue)] *)
Definition join (c : list string) (glue : string) : string :=
  join_loop c glue true EmptyString.


(** How a run of [replace_all] can end: it returns, it steps outside
    what C++ defines, or it is still running when the fuel is gone. *)
Inductive outcome (A : Type) : Type :=
| Returns (a : A)
| Undefined
| Unfinished.

Arguments Undefined {A}.
Arguments Unfinished {A}.

(** The terminator of a C string. *)
Definition nul : ascii := Ascii.zero.

(** A character array read through [const char*]: the characters before
    the first terminator. *)
Fixpoint c_str (s : string) : string :=
  match s with
  | EmptyString => EmptyString
  | String c rest => if Ascii.eqb c nul then EmptyString else String c (c_str rest)
  end.

(** [std::search(str.begin() + pos, str.end(), std::begin(what),
    std::end(what) - 1)], iterators as indices: the first occurrence of
    [what] at or after [pos], [str.end()] (that is [size()]) when there is
    none. *)
Definition search (str : string) (pos : nat) (what : string) : nat :=
  match index pos what str with
  | Some i => i
  | None => String.length str
  end.

(** [str.replace(first, last, s)], iterators as indices. *)
Definition replace (str : string) (first last : nat) (s : string) : string :=
  (substring 0 first str ++ s
   ++ substring last (String.length str - last) str)%string.

(** The [while] loop of [replace_all]; [what] and [with_] are the arrays
    without their last element.  [i] is the iterator as an index. *)
Fixpoint replace_all_loop (fuel : nat) (str what with_ : string) (i : nat)
    : outcome string :=
  if i =? String.length str then Returns str
  else
    match fuel with
    | 0 => Unfinished
    | S fuel' =>
        let before := i in
        (* str.replace(i, i + WhatSize - 1, with) *)
        let str := replace str i (i + String.length what) (c_str with_) in
        (* next(str.begin() + before + (WithSize - 1)) *)
        let from := before + String.length with_ in
        if String.length str <? from then Undefined
        else replace_all_loop fuel' str what with_ (search str from what)
    end.

(** [replace_all(str, what, with)]: the final content of [str]. *)
Definition replace_all (fuel : nat) (str what with_ : string)
    : outcome string :=
  replace_all_loop fuel str what with_ (search str 0 what).

End string_algorithms.

(** * Part II: [src/response_promise.cpp] *)

(** ** What the translation unit takes from its headers

    [response_promise.cpp] includes [caf/local_actor.hpp] and
    [caf/response_promise.hpp].  The types below are declared there; the
    functions of the translation unit are embedded over them. *)

(** The operations of [message_id], [message], [error] and
    [execution_unit] that [response_promise.cpp] calls.  They are taken as
    they are used: [mid_valid] is [message_id::valid()], [mid_response_id]
    is [message_id::response_id()], [mid_mark_as_answered] is the state
    after [message_id::mark_as_answered()], and [make_message] builds a
    message from an error. *)
Class Externals : Type := {
  message_id : Type;
  mid_valid : message_id -> bool;
  mid_response_id : message_id -> message_id;
  mid_mark_as_answered : message_id -> message_id;
  message : Type;
  error : Type;
  make_message : error -> message;
  execution_unit : Type
}.

(** A handle to an actor ([actor_addr], [actor]).  A handle that
    [std::move] has emptied is [invalid_actor_addr]. *)
Inductive actor_addr : Type :=
| invalid_actor_addr
| actor_handle (a : nat).

(** [forwarding_stack]: a [std::vector] of handles; [back()] is the next
    stage. *)
Definition forwarding_stack : Type := list actor_addr.

(** [v.empty()] *)
Definition is_empty {A : Type} (v : list A) : bool :=
  match v with
  | [] => true
  | _ :: _ => false
  end.

(** [v.back()] of a vector of handles; only called on a non-empty vector. *)
Definition back (v : forwarding_stack) : actor_addr := last v invalid_actor_addr.

(** [v.pop_back()] *)
Definition pop_back {A : Type} (v : list A) : list A := removelast v.

(** [std::move(x)] on a handle: the value taken, and what stays behind. *)
Definition move_handle (x : actor_addr) : actor_addr * actor_addr :=
  (x, invalid_actor_addr).

(** [std::move(v)] on a vector: the value taken, and what stays behind. *)
Definition move_vector {A : Type} (v : list A) : list A * list A := (v, []).

Section response_promise_model.

Context {ext : Externals}.

(** [mailbox_element]: the fields [response_promise.cpp] reads and the
    arguments of [mailbox_element::make]. *)
Record mailbox_element : Type := make_mailbox_element {
  sender : actor_addr;
  mid : message_id;
  stages : forwarding_stack;
  msg : message
}.

(** [local_actor], as far as [self_->address()] and [self_->context()]. *)
Record local_actor : Type := {
  address : actor_addr;
  context : execution_unit
}.

(** The members of [response_promise]. *)
Record response_promise : Type := {
  self_ : local_actor;
  source_ : actor_addr;
  stages_ : forwarding_stack;
  id_ : message_id
}.

(** The two overloads of [abstract_actor::enqueue] a promise calls,
    recorded with the handle they are called through.  The handle is
    recorded as it is; what stands behind it is the callee's matter. *)
Inductive enqueue_call : Type :=
| enqueue_message (target : actor_addr) (from : actor_addr)
    (id : message_id) (content : message) (host : execution_unit)
| enqueue_element (target : actor_addr) (what : mailbox_element)
    (host : execution_unit).

(** [response_promise::response_promise(local_actor* self, mailbox_element& src)].
    Returns the promise and [src] as the constructor leaves it. *)
Definition response_promise_ctor (self : local_actor) (src : mailbox_element)
    : response_promise * mailbox_element :=
  (* source_(std::move(src.sender)) *)
  let '(source, sender_left) := move_handle (sender src) in
  (* stages_(std::move(src.stages)) *)
  let '(stgs, stages_left) := move_vector (stages src) in
  (* id_(src.mid) *)
  let id := mid src in
  (* src.mid.mark_as_answered(); *)
  let mid_left := mid_mark_as_answered (mid src) in
  ({| self_ := self; source_ := source; stages_ := stgs; id_ := id |},
   {| sender := sender_left; mid := mid_left; stages := stages_left;
      msg := msg src |}).

(** Modelled from the spec: [response_promise::valid()] is defined in
    [caf/response_promise.hpp], which is not part of the sources at hand.
    The spec gives it as "validity = [correlation_id] is non-absent". *)
Definition valid (p : response_promise) : bool := mid_valid (id_ p).

(** [void response_promise::deliver_impl(message msg) const].  [source_]
    and [stages_] are mutable members: the result is the promise as the
    call leaves it, with the [enqueue] calls made, in order. *)
Definition deliver_impl (p : response_promise) (m : message)
    : response_promise * list enqueue_call :=
  if negb (valid p) then (p, [])
  else if is_empty (stages_ p) then
    (p, [enqueue_message (source_ p) (address (self_ p))
           (mid_response_id (id_ p)) m (context (self_ p))])
  else
    (* auto next = std::move(stages_.back()); stages_.pop_back(); *)
    let next := back (stages_ p) in
    let stages1 := pop_back (stages_ p) in
    (* mailbox_element::make(std::move(source_), id_, std::move(stages_),
                             std::move(msg)) *)
    let '(source, source_left) := move_handle (source_ p) in
    let '(stgs, stages_left) := move_vector stages1 in
    let what := make_mailbox_element source (id_ p) stgs m in
    ({| self_ := self_ p; source_ := source_left; stages_ := stages_left;
        id_ := id_ p |},
     [enqueue_element next what (context (self_ p))]).

(** [void response_promise::deliver(error x) const] *)
Definition deliver (p : response_promise) (x : error)
    : response_promise * list enqueue_call :=
  if mid_valid (id_ p) then deliver_impl p (make_message x)
  else (p, []).

(** ** Vocabulary for the properties *)

(** The call a terminal delivery makes. *)
Definition terminal_call (p : response_promise) (m : message) : enqueue_call :=
  enqueue_message (source_ p) (address (self_ p)) (mid_response_id (id_ p)) m
                  (context (self_ p)).

(** A forwarded element that still carries the sender [s] and the
    correlation id [i]. *)
Definition forwards_request (s : actor_addr) (i : message_id)
    (c : enqueue_call) : Prop :=
  exists next what host,
    c = enqueue_element next what host /\ sender what = s /\ mid what = i.

(** A response message to [s] with the response id of [i]. *)
Definition answers_request (s : actor_addr) (i : message_id)
    (c : enqueue_call) : Prop :=
  exists from content host,
    c = enqueue_message s from (mid_response_id i) content host.

(** The reading of "exactly-once finalization" under which a promise that
    has made its terminal delivery makes no further [enqueue] call. *)
Definition exactly_once_finalization : Prop :=
  forall (p : response_promise) (m m' : message),
    valid p = true -> stages_ p = [] ->
    snd (deliver_impl (fst (deliver_impl p m)) m') = [].

(** The handle a call is made through. *)
Definition call_target (c : enqueue_call) : actor_addr :=
  match c with
  | enqueue_message target _ _ _ _ => target
  | enqueue_element target _ _ => target
  end.

(** Several [deliver_impl] calls on one promise, one after the other: the
    promise as the last call leaves it, and all [enqueue] calls in order. *)
Fixpoint deliver_all (p : response_promise) (ms : list message)
    : response_promise * list enqueue_call :=
  match ms with
  | [] => (p, [])
  | m :: ms =>
      let '(p1, calls1) := deliver_impl p m in
      let '(p2, calls2) := deliver_all p1 ms in
      (p2, calls1 ++ calls2)
  end.

(** ** A pipeline of stages

    What the receivers of a forwarded element do with it is not in this
    translation unit: a stage is an actor that takes the element off its
    mailbox, builds a promise from it and delivers its own result.  The
    scheduler's choice of execution unit and the stage's computation are
    parameters. *)

Variable context_of : actor_addr -> execution_unit.
Variable behavior : actor_addr -> message -> message.

(** The local actor behind a handle. *)
Definition actor_of (a : actor_addr) : local_actor :=
  {| address := a; context := context_of a |}.

(** One hop: the actor behind [next] consumes [what] into a promise and
    delivers through it. *)
Definition hop (next : actor_addr) (what : mailbox_element)
    : list enqueue_call :=
  let '(p, _) := response_promise_ctor (actor_of next) what in
  snd (deliver_impl p (behavior next (msg what))).

(** What the receiver of a call does next: the target of a forwarded
    element makes a hop; a response message ends the exchange at the
    requester. *)
Definition consume (c : enqueue_call) : list enqueue_call :=
  match c with
  | enqueue_element next what _ => hop next what
  | enqueue_message _ _ _ _ _ => []
  end.

(** One hop step on everything in flight. *)
Definition hop_step (calls : list enqueue_call) : list enqueue_call :=
  flat_map consume calls.

(** Every [enqueue] call made when the calls in flight are followed for
    [hops] hop steps, in order. *)
Fixpoint run (hops : nat) (calls : list enqueue_call) : list enqueue_call :=
  calls ++ match hops with
           | 0 => []
           | S hops' => run hops' (hop_step calls)
           end.

End response_promise_model.

(** ** The correlation id, from the specification

    [caf/message_id.hpp] is not part of the sources at hand.  The
    definitions of this module follow the specification's description of
    the correlation id; they instantiate [Externals] wherever a concrete
    run is evaluated. *)

Module correlation_id.

(** Modelled from the spec: the role flag of a correlation id (request vs.
    response). *)
Inductive role : Type := request | response.

(** Modelled from the spec: the attributes of a correlation id, "a numeric
    identifier; a role flag (request vs. response); a validity flag
    (absent/zero id means no reply expected)", with the answered state
    that [mark_as_answered()] records. *)
Record t : Type := make {
  identifier : nat;
  id_role : role;
  answered : bool
}.

(** Modelled from the spec: [valid()] is "true unless the id denotes no
    reply expected", that is, unless the identifier is absent/zero. *)
Definition valid (i : t) : bool := negb (identifier i =? 0).

(** Modelled from the spec: [is_response()] is "true if role = response". *)
Definition is_response (i : t) : bool :=
  match id_role i with
  | response => true
  | request => false
  end.

(** Modelled from the spec: [response_id()] "returns the response-role
    counterpart of a request-role id" (same numeric identifier, role
    flipped).  The spec leaves the result open on an id that is invalid or
    already response-role; the same field update is taken there. *)
Definition response_id (i : t) : t :=
  {| identifier := identifier i; id_role := response; answered := answered i |}.

(** Modelled from the spec: [mark_as_answered()] is an "idempotent state
    transition" that records the request as claimed for an answer. *)
Definition mark_as_answered (i : t) : t :=
  {| identifier := identifier i; id_role := id_role i; answered := true |}.

End correlation_id.

(** A payload type for concrete runs: a tagged union of values and errors. *)
Inductive payload : Type :=
| value_payload (v : string)
| error_payload (e : string).

(** The instance used to evaluate the model on concrete requests: the
    correlation id of the specification, payloads as above, errors as
    strings, execution units numbered. *)
Definition concrete : Externals :=
  {| message_id := correlation_id.t;
     mid_valid := correlation_id.valid;
     mid_response_id := correlation_id.response_id;
     mid_mark_as_answered := correlation_id.mark_as_answered;
     message := payload;
     error := string;
     make_message := error_payload;
     execution_unit := nat |}.

(** ** Concrete requests

    The requests of the specification's scenarios, over [concrete]. *)

Module scenario.

#[local] Existing Instance concrete.

Definition this_actor : local_actor :=
  {| address := actor_handle 0; context := 0 |}.
Definition requester : actor_addr := actor_handle 1.
Definition stage_A : actor_addr := actor_handle 2.
Definition stage_B : actor_addr := actor_handle 3.

Definition id_42 : correlation_id.t := correlation_id.make 42 correlation_id.request false.
Definition id_7 : correlation_id.t := correlation_id.make 7 correlation_id.request false.
Definition no_id : correlation_id.t := correlation_id.make 0 correlation_id.request false.

(** Request 42 from [requester], no stages left. *)
Definition promise_42 : response_promise :=
  {| self_ := this_actor; source_ := requester; stages_ := []; id_ := id_42 |}.

(** Request 7 from [requester], to be passed on to [stage_B], then to
    [stage_A]. *)
Definition element_7 : mailbox_element :=
  {| sender := requester; mid := id_7; stages := [stage_A; stage_B];
     msg := value_payload "request" |}.
Definition promise_7 : response_promise :=
  fst (response_promise_ctor this_actor element_7).

(** A fire-and-forget message from [requester]. *)
Definition promise_fire_and_forget : response_promise :=
  {| self_ := this_actor; source_ := requester; stages_ := [stage_A];
     id_ := no_id |}.

(** Every stage runs on execution unit 0 and passes its input on. *)
Definition context_of (a : actor_addr) : execution_unit := 0.
Definition behavior (a : actor_addr) (m : message) : message := m.

End scenario.

(** * Properties of [split] *)

Module split_properties.

Import string_algorithms.

Lemma find_first_of_bounds (str delims : string) :
  forall prev pos,
    find_first_of str delims prev = Some pos -> prev <= pos < String.length str.
Proof.
  induction str as [|c rest IH]; intros prev pos; simpl.
  - discriminate.
  - destruct prev as [|prev'].
    + destruct (is_delim c delims).
      * intros [= <-]. lia.
      * destruct (find_first_of rest delims 0) as [p|] eqn:E; simpl; [|discriminate].
        intros [= <-]. apply IH in E. lia.
    + destruct (find_first_of rest delims prev') as [p|] eqn:E; simpl; [|discriminate].
      intros [= <-]. apply IH in E. lia.
Qed.

(** One turn of the loop, as the source reads. *)
Lemma split_loop_step (str delims : string) (keep_all : bool)
    (result : list string) (prev : nat) :
  split_loop str delims keep_all result prev =
  match find_first_of str delims prev with
  | None => Some (result, prev)
  | Some pos =>
      if prev <? pos then
        sub <- substr str prev (Some (pos - prev)) ;;
        if negb (empty sub) || keep_all
        then split_loop str delims keep_all (push_back result sub) (pos + 1)
        else split_loop str delims keep_all result (pos + 1)
      else split_loop str delims keep_all result (pos + 1)
  end.
Proof.
  funelim (split_loop str delims keep_all result prev).
  - rewrite Hpos. reflexivity.
  - match goal with E : find_first_of _ _ _ = None |- _ => rewrite E end.
    reflexivity.
Qed.

Lemma substring_nonempty (s : string) :
  forall n m, 0 < m -> n < String.length s -> substring n m s <> EmptyString.
Proof.
  induction s as [|c s IH]; intros n m Hm Hn; simpl in *.
  - lia.
  - destruct n as [|n].
    + destruct m as [|m]; [lia | discriminate].
    + apply IH; lia.
Qed.

Lemma empty_false_iff (s : string) : empty s = false <-> s <> EmptyString.
Proof.
  destruct s; simpl; split; congruence.
Qed.

(** What [substr] returns inside the loop: [pos > prev] makes the token
    non-empty, and [prev <= size()] rules the exception out. *)
Lemma substr_token (str : string) (prev pos : nat) :
  prev < pos < String.length str ->
  exists sub, substr str prev (Some (pos - prev)) = Some sub
              /\ sub <> EmptyString.
Proof.
  intros H. unfold substr.
  destruct (String.length str <? prev) eqn:E.
  - apply Nat.ltb_lt in E. lia.
  - eexists. split; [reflexivity|].
    apply substring_nonempty; lia.
Qed.

(** What [substr(prev, npos)] returns after the loop. *)
Lemma substr_tail (str : string) (prev : nat) :
  prev < String.length str ->
  exists sub, substr str prev npos = Some sub /\ sub <> EmptyString.
Proof.
  intros H. unfold substr.
  destruct (String.length str <? prev) eqn:E.
  - apply Nat.ltb_lt in E. lia.
  - eexists. split; [reflexivity|].
    apply substring_nonempty; simpl; lia.
Qed.

(** Loop invariant: the loop only appends, every appended token is
    non-empty, and the flag [keep_all] is never consulted with an empty
    token at hand. *)
Lemma split_loop_tokens (str delims : string) :
  forall fuel result prev,
    String.length str - prev < fuel ->
    exists tokens prev',
      Forall nonempty tokens /\
      forall keep_all,
        split_loop str delims keep_all result prev
        = Some (result ++ tokens, prev').
Proof.
  induction fuel as [|fuel IH]; intros result prev Hfuel; [lia|].
  destruct (find_first_of str delims prev) as [pos|] eqn:Hfind.
  - pose proof (find_first_of_bounds _ _ _ Hfind) as Hb.
    destruct (prev <? pos) eqn:Hlt.
    + apply Nat.ltb_lt in Hlt.
      destruct (@substr_token str prev pos) as (sub & Hsub & Hne); [lia|].
      destruct (IH (push_back result sub) (pos + 1)) as (tokens & prev' & Hall & Hrun);
        [lia|].
      exists (sub :: tokens), prev'. split; [constructor; assumption|].
      intros keep_all. rewrite split_loop_step, Hfind.
      apply Nat.ltb_lt in Hlt. rewrite Hlt, Hsub. simpl.
      apply empty_false_iff in Hne. rewrite Hne. simpl.
      rewrite Hrun. unfold push_back. rewrite <- app_assoc. reflexivity.
    + destruct (IH result (pos + 1)) as (tokens & prev' & Hall & Hrun); [lia|].
      exists tokens, prev'. split; [assumption|].
      intros keep_all. rewrite split_loop_step, Hfind, Hlt. apply Hrun.
  - exists [], prev. split; [constructor|].
    intros keep_all. rewrite split_loop_step, Hfind, app_nil_r. reflexivity.
Qed.


(** C10.  For every input string and delimiter set, [split] returns
    normally, leaves the tokens already in the container in place, and
    appends only non-empty tokens: empty fields between leading,
    consecutive or trailing delimiters are never appended.  The appended
    tokens are the same for both values of [keep_all], so the flag has no
    observable effect. *)
Theorem split_appends_no_empty_token (result : list string)
    (str delims : string) :
  exists tokens,
    Forall nonempty tokens /\
    forall keep_all, split result str delims keep_all = Some (result ++ tokens).
Proof.
  destruct (@split_loop_tokens str delims (S (String.length str)) result 0)
    as (tokens & prev & Hall & Hrun); [lia|].
  destruct (prev <? String.length str) eqn:Hlt.
  - apply Nat.ltb_lt in Hlt.
    destruct (substr_tail str Hlt) as (sub & Hsub & Hne).
    exists (tokens ++ [sub]). split.
    + apply Forall_app. split; [assumption | repeat constructor; assumption].
    + intros keep_all. unfold split. rewrite Hrun. simpl.
      apply Nat.ltb_lt in Hlt. rewrite Hlt, Hsub. simpl.
      unfold push_back. rewrite app_assoc. reflexivity.
  - exists tokens. split; [assumption|].
    intros keep_all. unfold split. rewrite Hrun. simpl. rewrite Hlt.
    reflexivity.
Qed.

(** Leading, consecutive and trailing delimiters, with either flag. *)
Example split_compresses_delimiters :
  split [] ",,a;b,,c," ",;" true = Some ["a"; "b"; "c"]%string /\
  split [] ",,a;b,,c," ",;" false = Some ["a"; "b"; "c"]%string.
Proof. split; reflexivity. Qed.

End split_properties.

(** * Properties of the response promise *)

Section response_promise_properties.

Context {ext : Externals}.

(** ** Facts about the vector operations *)

Lemma back_snoc (rest : forwarding_stack) (next : actor_addr) :
  back (rest ++ [next]) = next.
Proof. unfold back. apply last_last. Qed.

Lemma pop_back_snoc {A : Type} (rest : list A) (x : A) :
  pop_back (rest ++ [x]) = rest.
Proof. unfold pop_back. apply removelast_last. Qed.

Lemma is_empty_snoc {A : Type} (rest : list A) (x : A) :
  is_empty (rest ++ [x]) = false.
Proof. destruct rest; reflexivity. Qed.

Lemma nonempty_snoc (v : forwarding_stack) :
  v <> [] -> v = pop_back v ++ [back v].
Proof. intros Hne. unfold pop_back, back. now apply app_removelast_last. Qed.

Lemma length_pop_back {A : Type} (v : list A) :
  List.length (pop_back v) = List.length v - 1.
Proof.
  unfold pop_back. induction v as [|x [|y v] IH]; simpl in *; try reflexivity.
  rewrite IH. simpl. lia.
Qed.

(** ** The two branches of [deliver_impl] *)

Lemma deliver_impl_invalid (p : response_promise) (m : message) :
  valid p = false -> deliver_impl p m = (p, []).
Proof. intros Hv. unfold deliver_impl. rewrite Hv. reflexivity. Qed.

Lemma deliver_impl_empty_chain (p : response_promise) (m : message) :
  valid p = true -> stages_ p = [] ->
  deliver_impl p m = (p, [terminal_call p m]).
Proof.
  intros Hv Hs. unfold deliver_impl. rewrite Hv, Hs. reflexivity.
Qed.

Lemma deliver_impl_snoc (p : response_promise) (m : message)
    (rest : forwarding_stack) (next : actor_addr) :
  valid p = true -> stages_ p = rest ++ [next] ->
  deliver_impl p m =
  ({| self_ := self_ p; source_ := invalid_actor_addr; stages_ := [];
      id_ := id_ p |},
   [enqueue_element next (make_mailbox_element (source_ p) (id_ p) rest m)
                    (context (self_ p))]).
Proof.
  intros Hv Hs. unfold deliver_impl.
  rewrite Hv, Hs, is_empty_snoc, back_snoc, pop_back_snoc. reflexivity.
Qed.

(** ** The claims *)

(** C2.  On a promise with [valid() == false], [deliver_impl] with any
    payload and [deliver] with any error make no [enqueue] call and leave
    the promise as it was. *)
Theorem invalid_promise_delivers_nothing (p : response_promise)
    (m : message) (x : error) :
  valid p = false ->
  deliver_impl p m = (p, []) /\ deliver p x = (p, []).
Proof.
  intros Hv. split.
  - now apply deliver_impl_invalid.
  - unfold deliver. unfold valid in Hv. rewrite Hv. reflexivity.
Qed.

(** C3.  On a valid promise with an empty forwarding chain, one
    [deliver_impl] call makes exactly one [enqueue] call: through the
    stored sender, with the delivering actor's address, the correlation id
    passed through [response_id()], the payload, and the actor's context. *)
Theorem deliver_impl_terminal (p : response_promise) (m : message) :
  valid p = true -> stages_ p = [] ->
  snd (deliver_impl p m) =
  [enqueue_message (source_ p) (address (self_ p)) (mid_response_id (id_ p)) m
                   (context (self_ p))].
Proof.
  intros Hv Hs. now rewrite deliver_impl_empty_chain.
Qed.

(** C4.  On a valid promise whose forwarding chain has length [N >= 1], one
    [deliver_impl] call makes exactly one [enqueue] call: through the last
    handle of the chain, with a new mailbox element that carries the stored
    sender, the correlation id as stored (not its [response_id()]), the
    chain without its last handle (length [N - 1]) and the payload. *)
Theorem deliver_impl_forward (p : response_promise) (m : message) :
  valid p = true -> stages_ p <> [] ->
  exists rest next,
    stages_ p = rest ++ [next] /\
    List.length rest = List.length (stages_ p) - 1 /\
    snd (deliver_impl p m) =
    [enqueue_element next
       {| sender := source_ p; mid := id_ p; stages := rest; msg := m |}
       (context (self_ p))].
Proof.
  intros Hv Hne.
  exists (pop_back (stages_ p)), (back (stages_ p)).
  pose proof (nonempty_snoc Hne) as Hs.
  split; [assumption|]. split; [apply length_pop_back|].
  now rewrite (deliver_impl_snoc p m _ _ Hv Hs).
Qed.

(** C6.  [deliver(x)] returns the same promise state and makes the same
    [enqueue] calls as [deliver_impl] on [make_message(x)]: the guard of
    [deliver] repeats the validity test of [deliver_impl]. *)
Theorem deliver_is_deliver_impl (p : response_promise) (x : error) :
  deliver p x = deliver_impl p (make_message x).
Proof.
  unfold deliver. destruct (mid_valid (id_ p)) eqn:Hv; [reflexivity|].
  symmetry. now apply deliver_impl_invalid.
Qed.

(** C7.  The constructor copies the element's correlation id into the
    promise as it is before the marking, and leaves the element's own id
    marked as answered; this is the constructor's effect alone, whatever is
    delivered afterwards. *)
Theorem ctor_marks_element_id (self : local_actor) (src : mailbox_element) :
  id_ (fst (response_promise_ctor self src)) = mid src /\
  mid (snd (response_promise_ctor self src)) = mid_mark_as_answered (mid src).
Proof. split; reflexivity. Qed.

(** C8.  The constructor moves the element's sender and forwarding chain
    into the promise and leaves the element with an invalid sender handle
    and an empty chain; the element's payload stays. *)
Theorem ctor_moves_sender_and_stages (self : local_actor)
    (src : mailbox_element) :
  let '(p, src') := response_promise_ctor self src in
  source_ p = sender src /\ stages_ p = stages src /\ self_ p = self /\
  sender src' = invalid_actor_addr /\ stages src' = [] /\ msg src' = msg src.
Proof. simpl. repeat split; reflexivity. Qed.

(** C1, as amended.  On a valid promise with an empty forwarding chain, a
    terminal delivery leaves the promise exactly as it was: nothing is
    moved out of it.  A further [deliver_impl] or [deliver] on the same
    promise therefore makes one more [enqueue] call, through the same
    sender and with the same response id. *)
Theorem terminal_delivery_keeps_promise (p : response_promise)
    (m m' : message) (x : error) :
  valid p = true -> stages_ p = [] ->
  fst (deliver_impl p m) = p /\
  snd (deliver_impl (fst (deliver_impl p m)) m') = [terminal_call p m'] /\
  snd (deliver (fst (deliver_impl p m)) x) = [terminal_call p (make_message x)].
Proof.
  intros Hv Hs.
  rewrite (deliver_impl_empty_chain p m Hv Hs). cbn [fst].
  split; [reflexivity|]. split.
  - now rewrite deliver_impl_empty_chain.
  - unfold deliver. unfold valid in Hv. rewrite Hv.
    now rewrite deliver_impl_empty_chain.
Qed.

(** ** Following a request through its forwarding chain *)

Section pipeline.

Variable context_of : actor_addr -> execution_unit.
Variable behavior : actor_addr -> message -> message.

Lemma run_nil (hops : nat) : run context_of behavior hops [] = [].
Proof. induction hops as [|hops IH]; simpl; [reflexivity | exact IH]. Qed.

Lemma run_promise (s : actor_addr) (i : message_id) :
  mid_valid i = true ->
  forall n stgs self m hops,
    List.length stgs = n -> n <= hops ->
    exists forwards final,
      run context_of behavior hops
          (snd (deliver_impl
                  {| self_ := self; source_ := s; stages_ := stgs; id_ := i |} m))
      = forwards ++ [final] /\
      List.length forwards = n /\
      Forall (forwards_request s i) forwards /\
      answers_request s i final.
Proof.
  intros Hv. induction n as [|n IH]; intros stgs self m hops Hlen Hhops.
  - apply length_zero_iff_nil in Hlen. subst stgs.
    rewrite deliver_impl_empty_chain by assumption || reflexivity.
    exists [], (enqueue_message s (address self) (mid_response_id i) m
                                (context self)).
    repeat split.
    + destruct hops; simpl; [reflexivity | now rewrite run_nil].
    + constructor.
    + now exists (address self), m, (context self).
  - destruct (exists_last (l := stgs)) as (rest & next & ->);
      [intros ->; discriminate|].
    rewrite length_app in Hlen. simpl in Hlen.
    destruct hops as [|hops]; [lia|].
    rewrite (@deliver_impl_snoc _ m rest next) by assumption || reflexivity.
    destruct (IH rest (actor_of context_of next) (behavior next m) hops)
      as (forwards & final & Hrun & Hlen' & Hall & Hfin); [lia | lia |].
    exists (enqueue_element next (make_mailbox_element s i rest m)
                            (context self) :: forwards), final.
    repeat split.
    + cbn [snd run app hop_step flat_map consume].
      rewrite app_nil_r. unfold hop. cbn. cbn in Hrun. rewrite Hrun.
      reflexivity.
    + simpl. lia.
    + constructor; [|assumption]. now eexists _, _, _.
    + assumption.
Qed.

(** C5.  Take a valid request with a forwarding chain of length [N]: the
    receiving actor builds a promise and delivers, and then every stage
    that is handed the forwarded element builds its own promise and
    delivers.  Following [N] hop steps (or more) gives [N] forwarding
    calls, each carrying the original sender and correlation id, and then
    exactly one response message: to the original sender, with the
    [response_id()] of the original correlation id. *)
Theorem chain_ends_in_one_terminal_enqueue (self : local_actor)
    (src : mailbox_element) (m : message) (hops : nat) :
  mid_valid (mid src) = true ->
  List.length (stages src) <= hops ->
  exists forwards final,
    run context_of behavior hops
        (snd (deliver_impl (fst (response_promise_ctor self src)) m))
    = forwards ++ [final] /\
    List.length forwards = List.length (stages src) /\
    Forall (forwards_request (sender src) (mid src)) forwards /\
    answers_request (sender src) (mid src) final.
Proof.
  intros Hv Hhops.
  exact (@run_promise (sender src) (mid src) Hv _ (stages src) self m hops
                      eq_refl Hhops).
Qed.

End pipeline.

End response_promise_properties.

(** * Properties of the correlation id *)

(** C9.  On a valid request-role correlation id, [response_id()] gives an
    id with [is_response() == true] and the same numeric identifier; the
    result is still valid and depends on the argument alone. *)
Theorem response_id_flips_role_only (i : correlation_id.t) :
  correlation_id.valid i = true ->
  correlation_id.is_response i = false ->
  correlation_id.is_response (correlation_id.response_id i) = true /\
  correlation_id.identifier (correlation_id.response_id i)
  = correlation_id.identifier i /\
  correlation_id.valid (correlation_id.response_id i) = true.
Proof.
  intros Hv _. split; [reflexivity|]. split; [reflexivity | exact Hv].
Qed.

(** * The scenarios, evaluated *)

Module scenario_runs.

Import scenario.
#[local] Existing Instance concrete.

(** Request 42, empty chain: one response message to the requester. *)
Example deliver_ok_42 :
  deliver_impl promise_42 (value_payload "ok") =
  (promise_42,
   [enqueue_message requester (actor_handle 0)
      (correlation_id.make 42 correlation_id.response false)
      (value_payload "ok") 0]).
Proof. reflexivity. Qed.

(** Request 7, chain [A, B]: one element to [stage_B], chain [A] left. *)
Example deliver_v_7 :
  snd (deliver_impl promise_7 (value_payload "v")) =
  [enqueue_element stage_B
     {| sender := requester; mid := id_7; stages := [stage_A];
        msg := value_payload "v" |} 0].
Proof. reflexivity. Qed.

(** Fire-and-forget: no call. *)
Example deliver_error_fire_and_forget :
  deliver promise_fire_and_forget "x"%string = (promise_fire_and_forget, []).
Proof. reflexivity. Qed.

(** Request 7 followed through both stages. *)
Example run_7 :
  run context_of behavior 2 (snd (deliver_impl promise_7 (value_payload "v"))) =
  [enqueue_element stage_B
     {| sender := requester; mid := id_7; stages := [stage_A];
        msg := value_payload "v" |} 0;
   enqueue_element stage_A
     {| sender := requester; mid := id_7; stages := [];
        msg := value_payload "v" |} 0;
   enqueue_message requester stage_A
     (correlation_id.make 7 correlation_id.response false)
     (value_payload "v") 0].
Proof. reflexivity. Qed.

(** C1, as stated, fails: the promise for request 42 is valid and has an
    empty chain, its first delivery is terminal, and its second delivery
    makes a second [enqueue] call to the requester. *)
Lemma second_terminal_delivery_enqueues_again :
  valid promise_42 = true /\
  stages_ promise_42 = [] /\
  snd (deliver_impl promise_42 (value_payload "ok")) =
    [terminal_call promise_42 (value_payload "ok")] /\
  snd (deliver_impl (fst (deliver_impl promise_42 (value_payload "ok")))
                    (value_payload "again")) =
    [enqueue_message requester (actor_handle 0)
       (correlation_id.make 42 correlation_id.response false)
       (value_payload "again") 0] /\
  ~ exactly_once_finalization.
Proof.
  repeat split; try reflexivity.
  intros Hclaim.
  specialize (Hclaim promise_42 (value_payload "ok") (value_payload "again")
                     eq_refl eq_refl).
  discriminate Hclaim.
Qed.

Lemma terminal_delivery_keeps_promise_witness :
  valid promise_42 = true /\
  stages_ promise_42 = [] /\
  (fst (deliver_impl promise_42 (value_payload "ok")) = promise_42 /\
   snd (deliver_impl (fst (deliver_impl promise_42 (value_payload "ok")))
                     (value_payload "again")) =
     [terminal_call promise_42 (value_payload "again")] /\
   snd (deliver (fst (deliver_impl promise_42 (value_payload "ok"))) "x"%string) =
     [terminal_call promise_42 (make_message "x"%string)]).
Proof.
  split; [reflexivity|]. split; [reflexivity|].
  apply (terminal_delivery_keeps_promise promise_42 (value_payload "ok")
           (value_payload "again") "x"%string); reflexivity.
Defined.

Lemma invalid_promise_delivers_nothing_witness :
  valid promise_fire_and_forget = false /\
  (deliver_impl promise_fire_and_forget (value_payload "v")
   = (promise_fire_and_forget, []) /\
   deliver promise_fire_and_forget "x"%string = (promise_fire_and_forget, [])).
Proof.
  split; [reflexivity|].
  apply (invalid_promise_delivers_nothing promise_fire_and_forget
           (value_payload "v") "x"%string); reflexivity.
Defined.

Lemma deliver_impl_terminal_witness :
  valid promise_42 = true /\
  stages_ promise_42 = [] /\
  snd (deliver_impl promise_42 (value_payload "ok")) =
  [enqueue_message requester (actor_handle 0)
     (correlation_id.make 42 correlation_id.response false)
     (value_payload "ok") 0].
Proof.
  split; [reflexivity|]. split; [reflexivity|].
  apply (deliver_impl_terminal promise_42 (value_payload "ok")); reflexivity.
Defined.

Lemma deliver_impl_forward_witness :
  valid promise_7 = true /\
  stages_ promise_7 <> [] /\
  exists rest next,
    stages_ promise_7 = rest ++ [next] /\
    List.length rest = List.length (stages_ promise_7) - 1 /\
    snd (deliver_impl promise_7 (value_payload "v")) =
    [enqueue_element next
       {| sender := source_ promise_7; mid := id_ promise_7; stages := rest;
          msg := value_payload "v" |}
       (context (self_ promise_7))].
Proof.
  split; [reflexivity|]. split; [discriminate|].
  apply (deliver_impl_forward promise_7 (value_payload "v"));
    [reflexivity | discriminate].
Defined.

Lemma chain_ends_in_one_terminal_enqueue_witness :
  mid_valid (mid element_7) = true /\
  List.length (stages element_7) <= 2 /\
  exists forwards final,
    run context_of behavior 2
        (snd (deliver_impl (fst (response_promise_ctor this_actor element_7))
                           (value_payload "v")))
    = forwards ++ [final] /\
    List.length forwards = List.length (stages element_7) /\
    Forall (forwards_request (sender element_7) (mid element_7)) forwards /\
    answers_request (sender element_7) (mid element_7) final.
Proof.
  split; [reflexivity|]. split; [simpl; lia|].
  apply (chain_ends_in_one_terminal_enqueue context_of behavior this_actor
           element_7 (value_payload "v") (hops := 2)); [reflexivity | simpl; lia].
Defined.

Lemma response_id_flips_role_only_witness :
  correlation_id.valid id_42 = true /\
  correlation_id.is_response id_42 = false /\
  (correlation_id.is_response (correlation_id.response_id id_42) = true /\
   correlation_id.identifier (correlation_id.response_id id_42)
   = correlation_id.identifier id_42 /\
   correlation_id.valid (correlation_id.response_id id_42) = true).
Proof.
  split; [reflexivity|]. split; [reflexivity|].
  apply (response_id_flips_role_only id_42); reflexivity.
Defined.

End scenario_runs.

(** * More about the string helpers *)

(** ** Facts about strings *)

Module string_facts.

Import string_algorithms.

Local Open Scope string_scope.

Lemma append_nil_r (s : string) : s ++ "" = s.
Proof. induction s as [|c s IH]; simpl; [reflexivity | now rewrite IH]. Qed.

Lemma append_assoc (a b c : string) : (a ++ b) ++ c = a ++ b ++ c.
Proof. induction a as [|x a IH]; simpl; [reflexivity | now rewrite IH]. Qed.

Lemma length_append (a b : string) :
  String.length (a ++ b) = String.length a + String.length b.
Proof. induction a as [|x a IH]; simpl; [reflexivity | now rewrite IH]. Qed.

Lemma empty_true_iff (s : string) : empty s = true <-> s = "".
Proof. destruct s; simpl; split; congruence. Qed.

Lemma empty_length (s : string) : empty s = (String.length s =? 0)%nat.
Proof. destruct s; reflexivity. Qed.

Lemma substring_append_skip (a b : string) (n m : nat) :
  substring (String.length a + n) m (a ++ b) = substring n m b.
Proof. induction a as [|x a IH]; simpl; [reflexivity | exact IH]. Qed.

Lemma substring_append_take (a b : string) :
  substring 0 (String.length a) (a ++ b) = a.
Proof.
  induction a as [|x a IH]; simpl.
  - destruct b; reflexivity.
  - now rewrite IH.
Qed.

Lemma substring_full (s : string) : substring 0 (String.length s) s = s.
Proof.
  rewrite <- (append_nil_r s) at 2. apply substring_append_take.
Qed.

Lemma length_substring (s : string) :
  forall n m,
    String.length (substring n m s) = Nat.min m (String.length s - n).
Proof.
  induction s as [|c s IH]; intros n m; simpl.
  - destruct n, m; reflexivity.
  - destruct n as [|n].
    + destruct m as [|m]; simpl; [reflexivity|].
      rewrite IH, Nat.sub_0_r. reflexivity.
    + apply IH.
Qed.

Lemma substring_cut (s : string) :
  forall i, i <= String.length s ->
    s = substring 0 i s ++ substring i (String.length s - i) s.
Proof.
  induction s as [|c s IH]; intros i Hi; simpl in *.
  - destruct i; reflexivity.
  - destruct i as [|i]; simpl.
    + now rewrite substring_full.
    + f_equal. apply IH. lia.
Qed.

(** ** [find_first_of] and delimiter-free strings *)

Lemma find_first_of_append_skip (pre suf delims : string) :
  find_first_of (pre ++ suf) delims (String.length pre)
  = option_map (Nat.add (String.length pre)) (find_first_of suf delims 0).
Proof.
  induction pre as [|c pre IH]; simpl.
  - destruct (find_first_of suf delims 0); reflexivity.
  - rewrite IH. destruct (find_first_of suf delims 0); reflexivity.
Qed.

Lemma delimiter_free_cons (c : ascii) (s delims : string) :
  delimiter_free (String c s) delims
  <-> is_delim c delims = false /\ delimiter_free s delims.
Proof.
  unfold delimiter_free, npos. simpl.
  destruct (is_delim c delims); [split; [discriminate | intros [? _]; discriminate]|].
  destruct (find_first_of s delims 0); simpl; split.
  - discriminate.
  - intros [_ ?]. discriminate.
  - now split.
  - reflexivity.
Qed.

Lemma delimiter_free_nil (delims : string) : delimiter_free "" delims.
Proof. reflexivity. Qed.

(** What [find_first_of] has passed over when it answers an index. *)
Lemma find_first_of_some (delims : string) :
  forall s k,
    find_first_of s delims 0 = Some k ->
    exists tok d rest,
      s = tok ++ String d rest /\ String.length tok = k /\
      delimiter_free tok delims /\ is_delim d delims = true.
Proof.
  induction s as [|c s IH]; intros k; simpl; [discriminate|].
  destruct (is_delim c delims) eqn:Hc.
  - intros [= <-]. exists "", c, s. repeat split; assumption.
  - destruct (find_first_of s delims 0) as [j|] eqn:Hj; simpl; [|discriminate].
    intros [= <-].
    destruct (IH j eq_refl) as (tok & d & rest & -> & Hlen & Hfree & Hd).
    exists (String c tok), d, rest. repeat split.
    + simpl. now rewrite Hlen.
    + apply delimiter_free_cons. now split.
    + assumption.
Qed.

(** ** The reference [runs] *)

Lemma runs_free_prefix (delims : string) :
  forall tok s cur,
    delimiter_free tok delims ->
    runs (tok ++ s) delims cur = runs s delims (cur ++ tok).
Proof.
  induction tok as [|c tok IH]; intros s cur Hfree; simpl.
  - now rewrite append_nil_r.
  - apply delimiter_free_cons in Hfree. destruct Hfree as [Hc Hfree].
    rewrite Hc, IH by assumption.
    now rewrite append_assoc.
Qed.

Lemma runs_free (delims tok cur : string) :
  delimiter_free tok delims -> runs tok delims cur = flush (cur ++ tok).
Proof.
  intros Hfree. rewrite <- (append_nil_r tok) at 1.
  now rewrite runs_free_prefix.
Qed.

Lemma runs_delim (delims : string) (d : ascii) (rest cur : string) :
  is_delim d delims = true ->
  runs (String d rest) delims cur = (flush cur ++ runs rest delims "")%list.
Proof. intros Hd. simpl. now rewrite Hd. Qed.

End string_facts.

(** * [split] computes the runs between delimiters *)

Module split_refinement.

Import string_algorithms string_facts split_properties.

Local Open Scope string_scope.

(** What the code after the loop appends when the loop stopped at [prev]. *)
Lemma substr_rest (pre suf : string) :
  suf <> "" ->
  substr (pre ++ suf) (String.length pre) npos = Some suf.
Proof.
  intros Hne. unfold substr. rewrite length_append.
  destruct (String.length pre + String.length suf <? String.length pre)%nat eqn:E.
  - apply Nat.ltb_lt in E. lia.
  - f_equal. simpl.
    replace (String.length pre + String.length suf - String.length pre)%nat
      with (String.length suf) by lia.
    rewrite <- (Nat.add_0_r (String.length pre)) at 1.
    rewrite substring_append_skip. apply substring_full.
Qed.

(** What [substr] cuts out inside the loop. *)
Lemma substr_field (pre tok rest : string) :
  substr (pre ++ tok ++ rest) (String.length pre)
         (Some (String.length pre + String.length tok - String.length pre)%nat)
  = Some tok.
Proof.
  unfold substr. rewrite !length_append.
  destruct (String.length pre + (String.length tok + String.length rest)
            <? String.length pre)%nat eqn:E.
  - apply Nat.ltb_lt in E. lia.
  - f_equal. simpl.
    replace (Nat.min _ _) with (String.length tok) by lia.
    rewrite <- (Nat.add_0_r (String.length pre)) at 1.
    rewrite substring_append_skip. apply substring_append_take.
Qed.

(** The loop entered at the end of [pre], and the code after it, append
    the runs of the rest of the string. *)
Lemma split_loop_runs (delims : string) (keep_all : bool) :
  forall fuel suf pre str result,
    String.length suf < fuel ->
    str = pre ++ suf ->
    (st <- split_loop str delims keep_all result (String.length pre) ;;
     let '(result, prev) := st in
     if (prev <? String.length str)%nat then
       tail <- substr str prev npos ;;
       Some (push_back result tail)
     else Some result)
    = Some (result ++ runs suf delims "")%list.
Proof.
  induction fuel as [|fuel IH]; intros suf pre str result Hfuel Hstr; [lia|].
  rewrite split_loop_step. subst str.
  rewrite find_first_of_append_skip.
  destruct (find_first_of suf delims 0) as [k|] eqn:Hfind; simpl.
  - destruct (find_first_of_some _ _ Hfind)
      as (tok & d & rest & -> & Hlen & Hfree & Hd).
    subst k.
    rewrite runs_free_prefix, runs_delim by assumption.
    change ("" ++ tok) with tok.
    rewrite length_append in Hfuel. simpl in Hfuel.
    assert (Hstr : pre ++ tok ++ String d rest
                   = (pre ++ tok ++ String d "") ++ rest)
      by now rewrite !append_assoc.
    assert (Hpos : (String.length pre + String.length tok + 1)%nat
                   = String.length (pre ++ tok ++ String d "")).
    { rewrite !length_append. simpl. lia. }
    destruct (empty tok) eqn:Hempty.
    + apply empty_true_iff in Hempty. subst tok.
      change (String.length "") with 0%nat in *.
      rewrite Nat.add_0_r in *. rewrite Nat.ltb_irrefl, Hpos.
      rewrite (IH rest _ _ result); [reflexivity | lia | exact Hstr].
    + assert (Hlen : 0 < String.length tok)
        by (destruct tok; [discriminate | simpl; lia]).
      replace (String.length pre <? String.length pre + String.length tok)%nat
        with true by (symmetry; apply Nat.ltb_lt; lia).
      rewrite substr_field. cbn [bind]. rewrite Hempty. cbn [negb orb].
      rewrite Hpos.
      rewrite (IH rest _ _ (push_back result tok)); [| lia | exact Hstr].
      unfold push_back, flush. rewrite Hempty, <- app_assoc. reflexivity.
  - rewrite runs_free by exact Hfind. simpl.
    rewrite length_append.
    destruct suf as [|c suf].
    + simpl. rewrite Nat.add_0_r, Nat.ltb_irrefl, app_nil_r. reflexivity.
    + replace (String.length pre <? String.length pre + String.length (String c suf))%nat
        with true by (symmetry; apply Nat.ltb_lt; simpl; lia).
      rewrite substr_rest by discriminate. reflexivity.
Qed.

(** [split] appends exactly the runs of [str]. *)
Lemma split_runs (result : list string) (str delims : string)
    (keep_all : bool) :
  split result str delims keep_all
  = Some (result ++ runs str delims "")%list.
Proof.
  exact (@split_loop_runs delims keep_all (S (String.length str)) str ""
           str result (Nat.lt_succ_diag_r _) eq_refl).
Qed.

End split_refinement.

(** * Properties of [split], [join] and [splice] *)

Module split_join_properties.

Import string_algorithms string_facts split_refinement.

Local Open Scope string_scope.

(** ** Helpers *)

Lemma delimiter_free_snoc (delims : string) (c : ascii) :
  forall cur,
    delimiter_free cur delims -> is_delim c delims = false ->
    delimiter_free (cur ++ String c "") delims.
Proof.
  induction cur as [|x cur IH]; intros Hfree Hc; simpl.
  - apply delimiter_free_cons. split; [assumption | reflexivity].
  - apply delimiter_free_cons in Hfree. destruct Hfree as [Hx Hfree].
    apply delimiter_free_cons. split; [assumption | now apply IH].
Qed.

Lemma flush_delimiter_free (delims cur : string) :
  delimiter_free cur delims ->
  Forall (fun t => delimiter_free t delims) (flush cur).
Proof.
  intros Hfree. unfold flush. destruct (empty cur); repeat constructor.
  assumption.
Qed.

Lemma runs_delimiter_free (delims : string) :
  forall s cur,
    delimiter_free cur delims ->
    Forall (fun t => delimiter_free t delims) (runs s delims cur).
Proof.
  induction s as [|c s IH]; intros cur Hfree; simpl.
  - now apply flush_delimiter_free.
  - destruct (is_delim c delims) eqn:Hc.
    + apply Forall_app. split.
      * now apply flush_delimiter_free.
      * apply IH. reflexivity.
    + apply IH. now apply delimiter_free_snoc.
Qed.

Lemma concat_empty_sep_cons (x : string) (xs : list string) :
  concat "" (x :: xs) = x ++ concat "" xs.
Proof.
  destruct xs; simpl; [now rewrite append_nil_r | reflexivity].
Qed.

Lemma concat_flush (cur : string) (l : list string) :
  concat "" (flush cur ++ l) = cur ++ concat "" l.
Proof.
  unfold flush. destruct (empty cur) eqn:E.
  - apply empty_true_iff in E. now subst cur.
  - simpl app. apply concat_empty_sep_cons.
Qed.

Lemma runs_concat (delims : string) :
  forall s cur,
    concat "" (runs s delims cur) = cur ++ remove_delims s delims.
Proof.
  induction s as [|c s IH]; intros cur; simpl.
  - rewrite <- (app_nil_r (if empty cur then [] else [cur])).
    apply (concat_flush cur []).
  - destruct (is_delim c delims).
    + rewrite (concat_flush cur), IH. reflexivity.
    + rewrite IH, append_assoc. reflexivity.
Qed.

Lemma is_delim_append_mid (c : ascii) (pre post : string) :
  is_delim c (pre ++ String c post) = true.
Proof.
  induction pre as [|x pre IH]; simpl.
  - now rewrite Ascii.eqb_refl.
  - rewrite IH. apply orb_true_r.
Qed.

Lemma remove_delims_suffix :
  forall g pre, remove_delims g (pre ++ g) = "".
Proof.
  induction g as [|c g IH]; intros pre; simpl; [reflexivity|].
  rewrite is_delim_append_mid.
  replace (pre ++ String c g) with ((pre ++ String c "") ++ g)
    by now rewrite append_assoc.
  apply IH.
Qed.

(** Every character of the glue is one of its own delimiters. *)
Lemma remove_delims_self (glue : string) : remove_delims glue glue = "".
Proof. exact (remove_delims_suffix glue ""). Qed.

Lemma runs_all_delims (delims : string) :
  forall g s cur,
    remove_delims g delims = "" -> g <> "" ->
    runs (g ++ s) delims cur = (flush cur ++ runs s delims "")%list.
Proof.
  induction g as [|c g IH]; intros s cur Hall Hne; [congruence|].
  simpl in Hall. simpl.
  destruct (is_delim c delims); [|discriminate].
  fold (flush cur). f_equal.
  destruct g as [|c' g]; [reflexivity|].
  rewrite IH by (assumption || discriminate). reflexivity.
Qed.

Lemma runs_concat_fields (glue : string) :
  glue <> "" ->
  forall ts,
    Forall (field glue) ts ->
    runs (concat glue ts) glue "" = ts.
Proof.
  intros Hglue. induction ts as [|t ts IH]; intros Hall; [reflexivity|].
  inversion Hall as [|? ? [Hne Hfree] Hall']; subst.
  assert (Hflush : flush t = [t]).
  { unfold flush. destruct t; [congruence | reflexivity]. }
  destruct ts as [|t' ts].
  - simpl. rewrite runs_free by assumption. exact Hflush.
  - change (concat glue (t :: t' :: ts))
      with (t ++ glue ++ concat glue (t' :: ts)).
    rewrite runs_free_prefix by assumption.
    rewrite runs_all_delims by (apply remove_delims_self || assumption).
    change ("" ++ t) with t. rewrite Hflush, IH by assumption. reflexivity.
Qed.

Lemma join_loop_rest (glue : string) :
  forall it oss,
    join_loop it glue false oss
    = oss ++ match it with
             | [] => ""
             | _ :: _ => glue ++ concat glue it
             end.
Proof.
  induction it as [|x it IH]; intros oss; simpl.
  - now rewrite append_nil_r.
  - rewrite IH, !append_assoc. destruct it as [|y it].
    + now rewrite append_nil_r.
    + reflexivity.
Qed.

Lemma join_concat (c : list string) (glue : string) :
  join c glue = concat glue c.
Proof.
  unfold join. destruct c as [|x c]; [reflexivity|].
  simpl join_loop. rewrite join_loop_rest. simpl.
  destruct c as [|y c]; [now rewrite append_nil_r | reflexivity].
Qed.


(** ** [split] *)

(** X1.  [split] appends to the container exactly the non-empty maximal
    runs of non-delimiter characters of [str], from left to right, whatever
    [keep_all] is. *)
Theorem split_computes_runs (result : list string) (str delims : string)
    (keep_all : bool) :
  split result str delims keep_all
  = Some (result ++ runs str delims "")%list.
Proof. apply split_runs. Qed.

(** X2.  No token that [split] appends contains a delimiter character. *)
Theorem split_tokens_have_no_delimiter (result : list string)
    (str delims : string) :
  exists tokens,
    (forall keep_all,
        split result str delims keep_all = Some (result ++ tokens)%list) /\
    Forall (fun t => delimiter_free t delims) tokens.
Proof.
  exists (runs str delims ""). split.
  - intros keep_all. apply split_runs.
  - apply runs_delimiter_free. reflexivity.
Qed.

(** X3.  [split] drops delimiter characters and nothing else: the appended
    tokens, put end to end, are [str] without its delimiter characters. *)
Theorem split_keeps_other_characters (result : list string)
    (str delims : string) :
  exists tokens,
    (forall keep_all,
        split result str delims keep_all = Some (result ++ tokens)%list) /\
    concat "" tokens = remove_delims str delims.
Proof.
  exists (runs str delims ""). split.
  - intros keep_all. apply split_runs.
  - apply (runs_concat delims str "").
Qed.

(** X4.  A string made of delimiter characters only (the empty string
    among them) leaves the container as it was. *)
Theorem split_of_delimiters_only (result : list string)
    (str delims : string) (keep_all : bool) :
  remove_delims str delims = "" ->
  split result str delims keep_all = Some result.
Proof.
  intros Hall. rewrite split_runs.
  destruct str as [|c str]; [now rewrite app_nil_r|].
  rewrite <- (append_nil_r (String c str)).
  rewrite runs_all_delims by (assumption || discriminate).
  now rewrite app_nil_r.
Qed.

(** ** [join] and [splice] *)

(** X5.  [join] writes the elements in order with [glue] between
    consecutive elements only: nothing before the first, nothing after the
    last, and the empty string for an empty container. *)
Theorem join_is_concat (c : list string) (glue : string) :
  join c glue = concat glue c.
Proof. apply join_concat. Qed.

(** X6.  The length of [join(c, glue)] is the sum of the lengths of the
    elements plus one [glue] for each element but the first. *)
Theorem join_length (c : list string) (glue : string) :
  String.length (join c glue)
  = (list_sum (map String.length c)
     + (List.length c - 1) * String.length glue)%nat.
Proof.
  rewrite join_concat. induction c as [|x c IH]; [reflexivity|].
  destruct c as [|y c].
  - simpl. lia.
  - change (concat glue (x :: y :: c)) with (x ++ glue ++ concat glue (y :: c)).
    rewrite !length_append, IH. simpl. lia.
Qed.


(** X8.  [split] undoes [join]: when the glue is not empty and every
    element is non-empty and has no character of the glue, splitting the
    joined string at the characters of the glue appends the elements back,
    one token each. *)
Theorem split_join_round_trip (result ts : list string) (glue : string)
    (keep_all : bool) :
  glue <> "" ->
  Forall (field glue) ts ->
  split result (join ts glue) glue keep_all = Some (result ++ ts)%list.
Proof.
  intros Hglue Hall.
  rewrite split_runs, join_concat, runs_concat_fields by assumption.
  reflexivity.
Qed.

Lemma flush_fields (delims cur : string) :
  delimiter_free cur delims -> Forall (field delims) (flush cur).
Proof.
  intros Hfree. unfold flush. destruct (empty cur) eqn:E; [constructor|].
  repeat constructor; [|assumption].
  intros ->. discriminate.
Qed.

Lemma runs_fields (delims : string) :
  forall s cur,
    delimiter_free cur delims -> Forall (field delims) (runs s delims cur).
Proof.
  induction s as [|c s IH]; intros cur Hfree; simpl.
  - now apply flush_fields.
  - destruct (is_delim c delims) eqn:Hc.
    + apply Forall_app. split; [now apply flush_fields | now apply IH].
    + apply IH. now apply delimiter_free_snoc.
Qed.

(** X18.  Splitting is idempotent through [join]: the tokens of a string,
    joined with the delimiters as glue and split again at the same
    delimiters, come back unchanged. *)
Theorem split_join_split (str delims : string) (keep_all keep_all' : bool)
    (tokens : list string) :
  delims <> "" ->
  split [] str delims keep_all = Some tokens ->
  split [] (join tokens delims) delims keep_all' = Some tokens.
Proof.
  intros Hdelims Hsplit. rewrite split_runs in Hsplit.
  injection Hsplit as <-. simpl app.
  rewrite split_runs, join_concat, runs_concat_fields;
    [reflexivity | assumption | now apply runs_fields].
Qed.

End split_join_properties.

(** * Properties of [replace_all] *)

Module replace_all_properties.

Import string_algorithms string_facts.

Local Open Scope string_scope.

(** ** [std::search] as an index *)

Lemma index_range (s1 : string) :
  forall s2 n m, index n s1 s2 = Some m -> n <= m <= String.length s2.
Proof.
  induction s2 as [|b s2 IH]; intros n m; cbn [index String.length].
  - destruct n; [|discriminate]. destruct s1; [|discriminate].
    intros [= <-]. lia.
  - destruct n as [|n].
    + destruct (prefix s1 (String b s2)); [intros [= <-]; lia|].
      destruct (index 0 s1 s2) as [j|] eqn:E; [|discriminate].
      intros [= <-]. apply IH in E. lia.
    + destruct (index n s1 s2) as [j|] eqn:E; [|discriminate].
      intros [= <-]. apply IH in E. lia.
Qed.

Lemma index_empty :
  forall s n, n <= String.length s -> index n "" s = Some n.
Proof.
  induction s as [|b s IH]; intros n Hn; simpl in *.
  - destruct n; [reflexivity | lia].
  - destruct n as [|n]; [reflexivity|].
    rewrite IH by lia. reflexivity.
Qed.

Lemma search_range (str what : string) (pos : nat) :
  pos <= String.length str ->
  pos <= search str pos what <= String.length str.
Proof.
  intros Hpos. unfold search.
  destruct (index pos what str) as [i|] eqn:E; [|lia].
  now apply index_range in E.
Qed.

(** Where [search] stops, there is the end of the string or an
    occurrence of [what]. *)
Lemma search_found (str what : string) (pos : nat) :
  search str pos what = String.length str
  \/ substring (search str pos what) (String.length what) str = what.
Proof.
  unfold search. destruct (index pos what str) as [i|] eqn:E.
  - right. now apply index_correct1 in E.
  - now left.
Qed.

Lemma search_empty (str : string) (pos : nat) :
  pos <= String.length str -> search str pos "" = pos.
Proof. intros Hpos. unfold search. now rewrite index_empty. Qed.

(** An occurrence lies inside the string. *)
Lemma occurrence_fits (str what : string) (i : nat) :
  i <= String.length str ->
  substring i (String.length what) str = what ->
  i + String.length what <= String.length str.
Proof.
  intros Hi Hsub.
  pose proof (length_substring str i (String.length what)) as Hlen.
  rewrite Hsub in Hlen. lia.
Qed.

(** ** [std::string::replace] *)

Lemma length_replace (str s : string) (first last : nat) :
  first <= last <= String.length str ->
  String.length (replace str first last s)
  = first + String.length s + (String.length str - last).
Proof.
  intros H. unfold replace.
  rewrite !length_append, !length_substring. lia.
Qed.

Lemma substring_cut3 :
  forall str i k,
    i + k <= String.length str ->
    str = substring 0 i str ++ substring i k str
          ++ substring (i + k) (String.length str - (i + k)) str.
Proof.
  induction str as [|c str IH]; intros i k H; simpl in *.
  - destruct i, k; simpl; reflexivity || lia.
  - destruct i as [|i]; simpl.
    + destruct k as [|k]; simpl.
      * now rewrite substring_full.
      * f_equal. rewrite <- (substring_cut str) by lia. reflexivity.
    + f_equal. apply IH. lia.
Qed.

(** Putting an occurrence back where it was changes nothing. *)
Lemma replace_same (str what : string) (i : nat) :
  i <= String.length str ->
  substring i (String.length what) str = what ->
  replace str i (i + String.length what) what = str.
Proof.
  intros Hi Hsub. unfold replace.
  pose proof (@occurrence_fits str what i Hi Hsub) as Hfit.
  rewrite (substring_cut3 str i (String.length what)) at 4 by assumption.
  now rewrite Hsub.
Qed.

(** ** The loop *)


(** With an empty [what] and a non-empty string the loop never ends:
    every pass inserts one [with_] and stops short of the end again. *)
Lemma replace_all_loop_spins (with_ : string) :
  c_str with_ = with_ ->
  forall fuel str i,
    i < String.length str ->
    replace_all_loop fuel str "" with_ i = Unfinished.
Proof.
  intros Hwith. induction fuel as [|fuel IH]; intros str i Hi; simpl;
    (replace (i =? String.length str)%nat with false
       by (symmetry; apply Nat.eqb_neq; lia)); [reflexivity|].
  rewrite Hwith, Nat.add_0_r.
  set (str1 := replace str i i with_).
  assert (Hlen1 : String.length str1
                  = i + String.length with_ + (String.length str - i))
    by (apply length_replace; lia).
  replace (String.length str1 <? i + String.length with_)%nat with false
    by (symmetry; apply Nat.ltb_ge; lia).
  rewrite search_empty by lia. apply IH. lia.
Qed.

(** Replacing [what] by itself leaves the string as it is. *)
Lemma replace_all_loop_same (what : string) :
  what <> "" -> c_str what = what ->
  forall n str i,
    i <= String.length str ->
    (i = String.length str \/ substring i (String.length what) str = what) ->
    String.length str - i <= n ->
    forall fuel, n <= fuel ->
      replace_all_loop fuel str what what i = Returns str.
Proof.
  intros Hwhat Hc.
  assert (Hpos : 0 < String.length what)
    by (destruct what; [congruence | simpl; lia]).
  induction n as [|n IH]; intros str i Hi Hocc Hn fuel Hfuel.
  - destruct fuel; simpl;
      (replace (i =? String.length str)%nat with true
         by (symmetry; apply Nat.eqb_eq; lia)); reflexivity.
  - destruct (Nat.eq_dec i (String.length str)) as [Hend|Hnot].
    + destruct fuel; simpl;
        (replace (i =? String.length str)%nat with true
           by (symmetry; apply Nat.eqb_eq; lia)); reflexivity.
    + destruct Hocc as [Hend|Hsub]; [contradiction|].
      pose proof (@occurrence_fits str what i Hi Hsub) as Hfit.
      destruct fuel as [|fuel]; [lia|].
      simpl. rewrite Hc, replace_same by assumption.
      replace (i =? String.length str)%nat with false
        by (symmetry; apply Nat.eqb_neq; assumption).
      replace (String.length str <? i + String.length what)%nat with false
        by (symmetry; apply Nat.ltb_ge; lia).
      pose proof (@search_range str what (i + String.length what) Hfit)
        as Hrange.
      apply (IH str); [lia | apply search_found | lia | lia].
Qed.

(** ** The properties *)


(** X10.  With an empty [what] (the array holds the terminator only),
    [replace_all] on a non-empty string never returns: every pass inserts
    [with] and the search stops short of the end again. *)
Theorem replace_all_empty_what_never_returns (str with_ : string)
    (fuel : nat) :
  str <> "" -> c_str with_ = with_ ->
  replace_all fuel str "" with_ = Unfinished.
Proof.
  intros Hstr Hwith. unfold replace_all.
  rewrite search_empty by lia.
  apply replace_all_loop_spins; [assumption|].
  destruct str; [congruence | simpl; lia].
Qed.

(** X11.  Replacing a non-empty [what] by itself gives the string back
    unchanged. *)
Theorem replace_all_by_itself (str what : string) (fuel : nat) :
  what <> "" -> c_str what = what ->
  String.length str <= fuel ->
  replace_all fuel str what what = Returns str.
Proof.
  intros Hwhat Hc Hfuel. unfold replace_all.
  pose proof (@search_range str what 0 (Nat.le_0_l _)) as Hrange.
  apply (@replace_all_loop_same what Hwhat Hc (String.length str));
    [lia | apply search_found | lia | assumption].
Qed.

(** A [with] with an embedded terminator: the text inserted ends at the
    terminator, the iterator is moved by the size of the array. *)
Example replace_all_embedded_terminator :
  replace_all 3 "ab" "b" (String "x" (String nul "yz")) = Undefined.
Proof. reflexivity. Qed.

End replace_all_properties.

(** * More about the response promise *)

Section response_promise_more.

Context {ext : Externals}.

Lemma deliver_impl_keeps_id (p : response_promise) (m : message) :
  id_ (fst (deliver_impl p m)) = id_ p /\
  self_ (fst (deliver_impl p m)) = self_ p.
Proof.
  unfold deliver_impl.
  destruct (negb (valid p)); [now split|].
  destruct (is_empty (stages_ p)); now split.
Qed.

(** X12.  No sequence of deliveries changes a promise's correlation id,
    its actor or its validity: a valid promise stays valid and an invalid
    one stays invalid. *)
Theorem deliveries_keep_validity (ms : list message) :
  forall p,
    id_ (fst (deliver_all p ms)) = id_ p /\
    self_ (fst (deliver_all p ms)) = self_ p /\
    valid (fst (deliver_all p ms)) = valid p.
Proof.
  induction ms as [|m ms IH]; intros p; [now repeat split|].
  simpl. pose proof (deliver_impl_keeps_id p m) as [Hid Hself].
  destruct (deliver_impl p m) as [p1 calls1]. simpl in Hid, Hself.
  specialize (IH p1). destruct (deliver_all p1 ms) as [p2 calls2].
  simpl in *. destruct IH as (IHid & IHself & IHvalid).
  unfold valid in *. rewrite IHid, IHself, Hid, Hself. now repeat split.
Qed.

(** X13.  On a valid promise with an empty forwarding chain, [n]
    deliveries in a row make [n] response calls through the same sender,
    one per payload in order, and leave the promise as it was. *)
Theorem terminal_deliveries_repeat (p : response_promise)
    (ms : list message) :
  valid p = true -> stages_ p = [] ->
  deliver_all p ms = (p, map (terminal_call p) ms).
Proof.
  intros Hv Hs. induction ms as [|m ms IH]; [reflexivity|].
  simpl. rewrite (deliver_impl_empty_chain p m Hv Hs), IH. reflexivity.
Qed.



Section pipeline_order.

Variable context_of : actor_addr -> execution_unit.
Variable behavior : actor_addr -> message -> message.

Lemma run_promise_trace (s : actor_addr) (i : message_id) :
  mid_valid i = true ->
  forall stgs self m hops,
    List.length stgs <= hops ->
    exists forwards from host,
      run context_of behavior hops
          (snd (deliver_impl
                  {| self_ := self; source_ := s; stages_ := stgs; id_ := i |} m))
      = forwards
        ++ [enqueue_message s from (mid_response_id i)
              (fold_right behavior m stgs) host] /\
      map call_target forwards = rev stgs.
Proof.
  intros Hv. induction stgs as [|next rest IH] using rev_ind;
    intros self m hops Hhops.
  - rewrite deliver_impl_empty_chain by assumption || reflexivity.
    exists [], (address self), (context self). split; [|reflexivity].
    destruct hops; simpl; [reflexivity | now rewrite run_nil].
  - rewrite length_app in Hhops. simpl in Hhops.
    destruct hops as [|hops]; [lia|].
    rewrite (@deliver_impl_snoc _ _ m rest next) by assumption || reflexivity.
    destruct (IH (actor_of context_of next) (behavior next m) hops)
      as (forwards & from & host & Hrun & Htargets); [lia|].
    exists (enqueue_element next (make_mailbox_element s i rest m)
                            (context self) :: forwards), from, host.
    split.
    + cbn [snd run app hop_step flat_map consume].
      rewrite app_nil_r. unfold hop. cbn. cbn in Hrun. rewrite Hrun.
      rewrite fold_right_app. reflexivity.
    + simpl. rewrite Htargets, rev_unit. reflexivity.
Qed.

(** X16.  The forwarding chain is a stack: followed through all its hops,
    a valid request is handed to the stages from the last to the first, and
    then to the original sender. *)
Theorem chain_visits_stages_last_first (self : local_actor)
    (src : mailbox_element) (m : message) (hops : nat) :
  mid_valid (mid src) = true ->
  List.length (stages src) <= hops ->
  map call_target
      (run context_of behavior hops
           (snd (deliver_impl (fst (response_promise_ctor self src)) m)))
  = rev (stages src) ++ [sender src].
Proof.
  intros Hv Hhops.
  destruct (@run_promise_trace (sender src) (mid src) Hv (stages src) self m
              hops Hhops) as (forwards & from & host & Hrun & Htargets).
  cbn [response_promise_ctor move_handle move_vector fst].
  rewrite Hrun, map_app, Htargets. reflexivity.
Qed.

(** X17.  The response that reaches the original sender carries the first
    payload passed through every stage, the last stage of the chain
    applied first. *)
Theorem chain_composes_stages (self : local_actor)
    (src : mailbox_element) (m : message) (hops : nat) :
  mid_valid (mid src) = true ->
  List.length (stages src) <= hops ->
  exists forwards from host,
    run context_of behavior hops
        (snd (deliver_impl (fst (response_promise_ctor self src)) m))
    = forwards
      ++ [enqueue_message (sender src) from (mid_response_id (mid src))
            (fold_right behavior m (stages src)) host].
Proof.
  intros Hv Hhops.
  destruct (@run_promise_trace (sender src) (mid src) Hv (stages src) self m
              hops Hhops) as (forwards & from & host & Hrun & _).
  now exists forwards, from, host.
Qed.

End pipeline_order.

End response_promise_more.

(** * More runs on concrete inputs *)

Module more_runs.

Import string_algorithms split_join_properties replace_all_properties.
Import scenario.
#[local] Existing Instance concrete.

Local Open Scope string_scope.

Lemma split_of_delimiters_only_witness :
  remove_delims ",;," ",;" = "" /\
  split ["x"] ",;," ",;" true = Some ["x"].
Proof.
  split; [reflexivity|].
  apply (@split_of_delimiters_only ["x"] ",;," ",;" true). reflexivity.
Defined.

Lemma split_join_round_trip_witness :
  ", " <> "" /\
  Forall (field ", ") ["a"; "bc"] /\
  split [] (join ["a"; "bc"] ", ") ", " true = Some ([] ++ ["a"; "bc"])%list.
Proof.
  assert (Hfields : Forall (field ", ") ["a"; "bc"])
    by (repeat constructor; discriminate).
  split; [discriminate|]. split; [exact Hfields|].
  apply (@split_join_round_trip [] ["a"; "bc"] ", " true);
    [discriminate | exact Hfields].
Defined.

Lemma split_join_split_witness :
  ",;" <> "" /\
  split [] ",a;;b," ",;" true = Some ["a"; "b"] /\
  split [] (join ["a"; "b"] ",;") ",;" false = Some ["a"; "b"].
Proof.
  split; [discriminate|]. split; [reflexivity|].
  apply (@split_join_split ",a;;b," ",;" true false ["a"; "b"]);
    [discriminate | reflexivity].
Defined.


Lemma replace_all_empty_what_never_returns_witness :
  "ab" <> "" /\
  c_str "X" = "X" /\
  replace_all 5 "ab" "" "X" = Unfinished.
Proof.
  split; [discriminate|]. split; [reflexivity|].
  apply (@replace_all_empty_what_never_returns "ab" "X" 5);
    [discriminate | reflexivity].
Defined.

Lemma replace_all_by_itself_witness :
  "bc" <> "" /\
  c_str "bc" = "bc" /\
  String.length "abcbc" <= 5 /\
  replace_all 5 "abcbc" "bc" "bc" = Returns "abcbc".
Proof.
  split; [discriminate|]. split; [reflexivity|]. split; [simpl; lia|].
  apply (@replace_all_by_itself "abcbc" "bc" 5);
    [discriminate | reflexivity | simpl; lia].
Defined.

Lemma terminal_deliveries_repeat_witness :
  valid promise_42 = true /\
  stages_ promise_42 = [] /\
  deliver_all promise_42 [value_payload "ok"; value_payload "again"]
  = (promise_42,
     map (terminal_call promise_42) [value_payload "ok"; value_payload "again"]).
Proof.
  split; [reflexivity|]. split; [reflexivity|].
  apply (@terminal_deliveries_repeat concrete promise_42
           [value_payload "ok"; value_payload "again"]); reflexivity.
Defined.


Lemma chain_visits_stages_last_first_witness :
  mid_valid (mid element_7) = true /\
  List.length (stages element_7) <= 2 /\
  map call_target
      (run context_of behavior 2
           (snd (deliver_impl (fst (response_promise_ctor this_actor element_7))
                              (value_payload "v"))))
  = (rev (stages element_7) ++ [sender element_7])%list.
Proof.
  split; [reflexivity|]. split; [simpl; lia|].
  apply (@chain_visits_stages_last_first concrete context_of behavior
           this_actor element_7 (value_payload "v") 2);
    [reflexivity | simpl; lia].
Defined.

Lemma chain_composes_stages_witness :
  mid_valid (mid element_7) = true /\
  List.length (stages element_7) <= 2 /\
  exists forwards from host,
    run context_of behavior 2
        (snd (deliver_impl (fst (response_promise_ctor this_actor element_7))
                           (value_payload "v")))
    = (forwards
       ++ [enqueue_message (sender element_7) from
             (mid_response_id (mid element_7))
             (fold_right behavior (value_payload "v") (stages element_7))
             host])%list.
Proof.
  split; [reflexivity|]. split; [simpl; lia|].
  apply (@chain_composes_stages concrete context_of behavior this_actor
           element_7 (value_payload "v") 2);
    [reflexivity | simpl; lia].
Defined.

End more_runs.
